(** * LRU replacer of the RMDB buffer pool

    A shallow embedding of [src/rmdb/src/replacer/lru_replacer.cpp] and the
    properties of its four operations [victim], [pin], [unpin] and [Size].

    The replacer owns two containers that are always updated together:
    - [LRUlist_], a [std::list<frame_id_t>]: most recently unpinned frame at
      the front, next victim at the back;
    - [LRUhash_], a [std::unordered_map<frame_id_t, list::iterator>]: for each
      tracked frame the iterator of its node in [LRUlist_].

    [victim], [pin] and [unpin] hold the latch from their first statement to
    their return, so each of them is modelled as one atomic state
    transformer; [Size] only reads the length of the list. *)

From stdpp Require Import gmap list.

(** ** Data model *)

(** [frame_id_t] is a plain integer; the replacer only compares identifiers
    and never computes with them. *)
Abbreviation frame_id_t := Z (only parsing).

(** A [std::list] iterator designates a node, and stays valid until that very
    node is erased. A node is modelled by its address together with the frame
    identifier it stores. *)
Abbreviation iterator := nat (only parsing).
Abbreviation node := (nat * Z)%type (only parsing).

(** The caller's memory holding the [frame_id_t] cells that [victim] writes
    through its output parameter. A pointer is [Some a] or [None] for
    [nullptr]. *)
Abbreviation pointer := (option nat) (only parsing).
Abbreviation memory := (gmap nat Z) (only parsing).

(** [*p = v]. Writing through [nullptr] or through a pointer to no cell is
    undefined behaviour, rendered as [None]. *)
Definition store (p : pointer) (v : frame_id_t) (m : memory) : option memory :=
  match p with
  | Some a => match m !! a with
              | Some _ => Some (<[a:=v]> m)
              | None => None
              end
  | None => None
  end.

(** [*p] as an rvalue. *)
Definition load (p : pointer) (m : memory) : option frame_id_t :=
  match p with
  | Some a => m !! a
  | None => None
  end.

(** *** [std::list<frame_id_t>] *)

Module List_.

(** The address handed out for a new node: any address that no live node
    occupies. Addresses of erased nodes may be handed out again. *)
Definition fresh_node (l : list node) : iterator := S (max_list (l.*1)).

Definition empty (l : list node) : bool :=
  match l with [] => true | _ => false end.

Definition size (l : list node) : N := N.of_nat (length l).

(** [back()] of a non-empty list. *)
Definition back (l : list node) : option frame_id_t := snd <$> last l.

Definition pop_back (l : list node) : list node := removelast l.

Definition push_front (v : frame_id_t) (l : list node) : list node :=
  (fresh_node l, v) :: l.

(** The past-the-end iterator; no node ever lives at this address. *)
Definition end_ : iterator := 0.

Definition begin (l : list node) : iterator :=
  match l with
  | [] => end_
  | n :: _ => n.1
  end.

(** [erase(it)]: unlink the node that [it] designates. An iterator that
    designates no live node is undefined behaviour, rendered as [None]. *)
Fixpoint erase (it : iterator) (l : list node) : option (list node) :=
  match l with
  | [] => None
  | n :: l' => if decide (n.1 = it) then Some l'
               else cons n <$> erase it l'
  end.

(** The range-for loop of [unpin]: is [frame_id] stored in some node? *)
Fixpoint scan (frame_id : frame_id_t) (l : list node) : bool :=
  match l with
  | [] => false
  | it :: l' => if decide (it.2 = frame_id) then true else scan frame_id l'
  end.

End List_.

(** *** [std::unordered_map<frame_id_t, iterator>] *)

Module Hash_.

(** [erase(key)] returns the number of elements removed, 0 or 1. *)
Definition erase (key : frame_id_t) (h : gmap Z nat) : nat * gmap Z nat :=
  (match h !! key with Some _ => 1 | None => 0 end, delete key h).

(** An iterator of the map designates one element, named here by its key.
    [find(key)] returns the iterator of the element with that key, or
    [None] for [end()]. *)
Definition find (key : frame_id_t) (h : gmap Z nat) : option frame_id_t :=
  match h !! key with
  | Some _ => Some key
  | None => None
  end.

(** [it->first] and [it->second]. The iterator is valid as long as its
    element is in the map; erasing the element invalidates it, and reading
    through an invalidated iterator is undefined behaviour, rendered as
    [None]. *)
Definition first (it : frame_id_t) (h : gmap Z nat) : option frame_id_t :=
  match h !! it with
  | Some _ => Some it
  | None => None
  end.

Definition second (it : frame_id_t) (h : gmap Z nat) : option iterator :=
  h !! it.

End Hash_.

(** ** The replacer *)

Module LRUReplacer.

Record t := mk {
  max_size_ : N;
  LRUlist_ : list node;
  LRUhash_ : gmap Z nat
}.

(** [LRUReplacer::LRUReplacer(size_t num_pages)] *)
Definition LRUReplacer (num_pages : N) : t :=
  {| max_size_ := num_pages; LRUlist_ := []; LRUhash_ := ∅ |}.

(** [bool LRUReplacer::victim(frame_id_t* frame_id)].
    Returns the boolean, the caller's memory and the replacer after the
    call. On an empty list the parameter [frame_id], a local copy of the
    caller's pointer, is set to [nullptr] and nothing is written. *)
Definition victim (frame_id : pointer) (m : memory) (s : t)
  : option (bool * memory * t) :=
  if List_.empty (LRUlist_ s) then
    let frame_id : pointer := None in
    Some (false, m, s)
  else
    v ← List_.back (LRUlist_ s);
    m ← store frame_id v m;
    key ← load frame_id m;
    let '(count, h) := Hash_.erase key (LRUhash_ s) in
    if decide (count = 0) then
      Some (false, m,
            {| max_size_ := max_size_ s; LRUlist_ := LRUlist_ s;
               LRUhash_ := h |})
    else
      Some (true, m,
            {| max_size_ := max_size_ s;
               LRUlist_ := List_.pop_back (LRUlist_ s);
               LRUhash_ := h |}).

(** [void LRUReplacer::pin(frame_id_t frame_id)].
    The statements are taken in the order of the source: the map entry is
    erased by the key read through [it], and only then is [it->second] read,
    through the same [it], for the list. *)
Definition pin (frame_id : frame_id_t) (s : t) : option t :=
  match Hash_.find frame_id (LRUhash_ s) with
  | Some it =>
      key ← Hash_.first it (LRUhash_ s);
      let h := (Hash_.erase key (LRUhash_ s)).2 in
      node ← Hash_.second it h;
      l ← List_.erase node (LRUlist_ s);
      Some {| max_size_ := max_size_ s; LRUlist_ := l; LRUhash_ := h |}
  | None => Some s
  end.

(** [void LRUReplacer::unpin(frame_id_t frame_id)] *)
Definition unpin (frame_id : frame_id_t) (s : t) : t :=
  if (max_size_ s <=? List_.size (LRUlist_ s))%N then s
  else if List_.scan frame_id (LRUlist_ s) then s
  else
    let l := List_.push_front frame_id (LRUlist_ s) in
    {| max_size_ := max_size_ s; LRUlist_ := l;
       LRUhash_ := <[frame_id:=List_.begin l]> (LRUhash_ s) |}.

(** [size_t LRUReplacer::Size()] *)
Definition Size (s : t) : N := List_.size (LRUlist_ s).

End LRUReplacer.

Import LRUReplacer.

(** ** Call sequences

    The buffer pool manager drives the replacer through its four operations.
    A call of [victim] is observed through its boolean and through the
    content of the cell that the caller passed, read after the call. *)

Inductive call :=
  | Victim (frame_id : pointer)
  | Pin (frame_id : frame_id_t)
  | Unpin (frame_id : frame_id_t)
  | GetSize.

Inductive result :=
  | Found (b : bool) (out : option frame_id_t)
  | Done
  | Count (n : N).

#[global] Instance call_eq_dec : EqDecision call.
Proof. solve_decision. Defined.

#[global] Instance result_eq_dec : EqDecision result.
Proof. solve_decision. Defined.

Definition exec (c : call) (w : memory * t) : option (result * (memory * t)) :=
  let '(m, s) := w in
  match c with
  | Victim p =>
      '(b, m', s') ← victim p m s;
      Some (Found b (load p m'), (m', s'))
  | Pin f => s' ← pin f s; Some (Done, (m, s'))
  | Unpin f => Some (Done, (m, unpin f s))
  | GetSize => Some (Count (Size s), (m, s))
  end.

Fixpoint run (cs : list call) (w : memory * t)
  : option (list result * (memory * t)) :=
  match cs with
  | [] => Some ([], w)
  | c :: cs' =>
      '(r, w') ← exec c w;
      '(rs, w'') ← run cs' w';
      Some (r :: rs, w'')
  end.

(** The states that some call sequence produces from a replacer constructed
    with capacity [c]. *)
Definition reachable (c : N) (s : t) : Prop :=
  ∃ cs m rs m', run cs (m, LRUReplacer c) = Some (rs, (m', s)).

(** A call sequence that never unpins [f]. *)
Definition no_unpin (f : frame_id_t) (cs : list call) : Prop :=
  Unpin f ∉ cs.

(** Every [victim] call of the sequence passes a pointer to a cell of the
    caller's memory [m]. *)
Definition valid_call (m : memory) (c : call) : Prop :=
  match c with
  | Victim p => is_Some (load p m)
  | _ => True
  end.

(** Counting along a run: the calls that are [unpin] calls, and the results
    that are a [victim] call returning true. *)
Definition is_unpin (c : call) : bool :=
  match c with
  | Unpin _ => true
  | _ => false
  end.

Definition is_found (r : result) : bool :=
  match r with
  | Found true _ => true
  | _ => false
  end.

(** ** The representation invariant

    What the two containers satisfy together in every state the replacer
    reaches: nodes have distinct addresses, frames are stored once, the map
    holds exactly the iterators of the live nodes, and the list fits the
    capacity. *)
Record wf (s : t) : Prop := {
  wf_nodes : NoDup ((LRUlist_ s).*1);
  wf_frames : NoDup ((LRUlist_ s).*2);
  wf_index : ∀ f it, LRUhash_ s !! f = Some it ↔ (it, f) ∈ LRUlist_ s;
  wf_capacity : (List_.size (LRUlist_ s) ≤ max_size_ s)%N
}.

(** ** Scenarios of the specification, run on the model *)

Example scenario_capacity_3 :
  run [Unpin 1; Unpin 2; Unpin 3; GetSize; Victim (Some 0); GetSize]
      ({[0 := 0%Z]}, LRUReplacer 3)
  = Some ([Done; Done; Done; Count 3; Found true (Some 1%Z); Count 2],
          ({[0 := 1%Z]},
           {| max_size_ := 3; LRUlist_ := [(3, 3%Z); (2, 2%Z)];
              LRUhash_ := {[2%Z := 2; 3%Z := 3]} |})).
Proof. vm_compute. reflexivity. Qed.

(** The scenario goes on with [pin(2)] while frame 2 is evictable: that
    call reads [it->second] after the erase of its entry. *)
Example scenario_capacity_3_pin :
  run [Unpin 1; Unpin 2; Unpin 3; GetSize; Victim (Some 0); GetSize; Pin 2]
      ({[0 := 0%Z]}, LRUReplacer 3)
  = None.
Proof. vm_compute. reflexivity. Qed.

Example scenario_capacity_1 :
  run [Unpin 5; GetSize; Unpin 6; GetSize; Victim (Some 0)]
      ({[0 := 0%Z]}, LRUReplacer 1)
  = Some ([Done; Count 1; Done; Count 1; Found true (Some 5%Z)],
          ({[0 := 5%Z]}, LRUReplacer 1)).
Proof. vm_compute. reflexivity. Qed.

Example scenario_duplicate :
  run [Unpin 7; Unpin 7; GetSize] (∅, LRUReplacer 4)
  = Some ([Done; Done; Count 1],
          (∅, {| max_size_ := 4; LRUlist_ := [(1, 7%Z)];
                 LRUhash_ := {[7%Z := 1]} |})).
Proof. vm_compute. reflexivity. Qed.

(** ** The containers *)

Lemma store_Some a v m :
  is_Some (m !! a) → store (Some a) v m = Some (<[a:=v]> m).
Proof. intros [x Hx]. unfold store. by rewrite Hx. Qed.

Lemma store_inv p v m m' :
  store p v m = Some m' →
  ∃ a, p = Some a ∧ is_Some (m !! a) ∧ m' = <[a:=v]> m.
Proof.
  destruct p as [a|]; simpl; [|done].
  destruct (m !! a) as [x|] eqn:Hx; [|done].
  intros [= <-]. eauto.
Qed.

Lemma load_store a v m : load (Some a) (<[a:=v]> m) = Some v.
Proof. simpl. apply lookup_insert_eq. Qed.

Lemma scan_spec f (l : list node) : List_.scan f l = true ↔ f ∈ l.*2.
Proof.
  induction l as [|n l IH]; simpl.
  - split; [done | by intros ?%elem_of_nil].
  - rewrite elem_of_cons. destruct (decide (n.2 = f)) as [->|Hne].
    + split; auto.
    + rewrite IH. split; [auto | by intros [?|?]].
Qed.

Lemma scan_false f (l : list node) : List_.scan f l = false ↔ f ∉ l.*2.
Proof. rewrite <- scan_spec. destruct (List_.scan f l); naive_solver. Qed.

Lemma fresh_node_fresh (l : list node) : List_.fresh_node l ∉ l.*1.
Proof.
  intros Hin%max_list_elem_of_le. unfold List_.fresh_node in Hin. lia.
Qed.

Lemma empty_spec (l : list node) : List_.empty l = true ↔ l = [].
Proof. by destruct l. Qed.

Lemma back_snoc (l : list node) it v : List_.back (l ++ [(it, v)]) = Some v.
Proof. unfold List_.back. by rewrite last_snoc. Qed.

Lemma pop_back_snoc (l : list node) n : List_.pop_back (l ++ [n]) = l.
Proof. apply removelast_last. Qed.

Lemma snoc_cases (l : list node) : l = [] ∨ ∃ l' it v, l = l' ++ [(it, v)].
Proof.
  destruct l as [|n l] using rev_ind; [by left | right].
  destruct n as [it v]. eauto.
Qed.

(** Erasing the iterator of a live node unlinks exactly that node. *)
Lemma erase_live it f (l : list node) :
  NoDup (l.*1) → (it, f) ∈ l →
  ∃ l1 l2, l = l1 ++ (it, f) :: l2 ∧ List_.erase it l = Some (l1 ++ l2).
Proof.
  induction l as [|[it' f'] l IH]; simpl; intros Hnd Hin.
  - by apply elem_of_nil in Hin.
  - apply NoDup_cons in Hnd as [Hfresh Hnd].
    destruct (decide (it' = it)) as [->|Hne].
    + exists [], l. split; [|done].
      apply elem_of_cons in Hin as [[= <-]|Hin]; [done|].
      exfalso. apply Hfresh. apply list_elem_of_fmap. by exists (it, f).
    + apply elem_of_cons in Hin as [[= ? ?]|Hin]; [congruence|].
      destruct (IH Hnd Hin) as (l1 & l2 & -> & ->).
      by exists ((it', f') :: l1), l2.
Qed.

Lemma erase_inv it (l l' : list node) :
  List_.erase it l = Some l' →
  ∃ l1 f l2, l = l1 ++ (it, f) :: l2 ∧ l' = l1 ++ l2.
Proof.
  revert l'. induction l as [|[it' f'] l IH]; simpl; intros l'; [done|].
  destruct (decide (it' = it)) as [->|Hne].
  - intros [= <-]. by exists [], f', l.
  - destruct (List_.erase it l) as [l0|] eqn:He; simpl; [|done].
    intros [= <-]. destruct (IH l0 eq_refl) as (l1 & f & l2 & -> & ->).
    by exists ((it', f') :: l1), f, l2.
Qed.

(** ** The operations, case by case *)

Lemma victim_empty p m s :
  LRUlist_ s = [] → victim p m s = Some (false, m, s).
Proof. intros Hl. unfold victim. by rewrite Hl. Qed.

Lemma victim_hit a m s l it v :
  LRUlist_ s = l ++ [(it, v)] → is_Some (m !! a) →
  is_Some (LRUhash_ s !! v) →
  victim (Some a) m s =
    Some (true, <[a:=v]> m,
          {| max_size_ := max_size_ s; LRUlist_ := l;
             LRUhash_ := delete v (LRUhash_ s) |}).
Proof.
  intros Hl Ha [it' Hh]. unfold victim. rewrite Hl.
  destruct (List_.empty (l ++ [(it, v)])) eqn:He.
  { apply empty_spec in He. by destruct l. }
  rewrite back_snoc. cbn [mbind option_bind].
  rewrite store_Some by done. cbn [mbind option_bind].
  rewrite load_store. cbn [mbind option_bind].
  unfold Hash_.erase. rewrite Hh.
  simpl. by rewrite pop_back_snoc.
Qed.

Lemma victim_miss a m s l it v :
  LRUlist_ s = l ++ [(it, v)] → is_Some (m !! a) →
  LRUhash_ s !! v = None →
  victim (Some a) m s = Some (false, <[a:=v]> m, s).
Proof.
  intros Hl Ha Hh. unfold victim. rewrite Hl.
  destruct (List_.empty (l ++ [(it, v)])) eqn:He.
  { apply empty_spec in He. by destruct l. }
  rewrite back_snoc. cbn [mbind option_bind].
  rewrite store_Some by done. cbn [mbind option_bind].
  rewrite load_store. cbn [mbind option_bind].
  unfold Hash_.erase. rewrite Hh.
  simpl. rewrite delete_id by done. rewrite <- Hl. by destruct s.
Qed.

(** Every terminating call of [victim] took one of its three paths. *)
Lemma victim_inv p m s b m' s' :
  victim p m s = Some (b, m', s') →
  (LRUlist_ s = [] ∧ b = false ∧ m' = m ∧ s' = s) ∨
  (∃ a l it v,
     p = Some a ∧ is_Some (m !! a) ∧ LRUlist_ s = l ++ [(it, v)] ∧
     m' = <[a:=v]> m ∧
     ((b = false ∧ LRUhash_ s !! v = None ∧ s' = s) ∨
      (b = true ∧ is_Some (LRUhash_ s !! v) ∧
       s' = {| max_size_ := max_size_ s; LRUlist_ := l;
               LRUhash_ := delete v (LRUhash_ s) |}))).
Proof.
  intros Hv. destruct (snoc_cases (LRUlist_ s)) as [Hl|(l & it & v & Hl)].
  - rewrite victim_empty in Hv by done. left. naive_solver.
  - right. destruct p as [a|]; cycle 1.
    { unfold victim in Hv. rewrite Hl in Hv.
      destruct (List_.empty (l ++ [(it, v)])) eqn:He.
      { apply empty_spec in He. by destruct l. }
      by rewrite back_snoc in Hv. }
    destruct (m !! a) as [x|] eqn:Ha; cycle 1.
    { unfold victim in Hv. rewrite Hl in Hv.
      destruct (List_.empty (l ++ [(it, v)])) eqn:He.
      { apply empty_spec in He. by destruct l. }
      rewrite back_snoc in Hv. simpl in Hv. by rewrite Ha in Hv. }
    exists a, l, it, v. split_and!; [done|by eexists|done|..].
    + destruct (LRUhash_ s !! v) as [it'|] eqn:Hh.
      * erewrite victim_hit in Hv by (done || by eexists). naive_solver.
      * erewrite victim_miss in Hv by (done || by eexists). naive_solver.
    + destruct (LRUhash_ s !! v) as [it'|] eqn:Hh.
      * erewrite victim_hit in Hv by (done || by eexists).
        right. naive_solver.
      * erewrite victim_miss in Hv by (done || by eexists).
        left. naive_solver.
Qed.

Lemma pin_untracked f s : LRUhash_ s !! f = None → pin f s = Some s.
Proof. intros Hh. unfold pin, Hash_.find. by rewrite Hh. Qed.

(** When the index holds [f], the entry is erased and [it->second] is then
    read through the iterator of the erased entry. *)
Lemma pin_tracked f s : is_Some (LRUhash_ s !! f) → pin f s = None.
Proof.
  intros [it Hh]. unfold pin, Hash_.find, Hash_.first, Hash_.second.
  rewrite Hh. cbn [mbind option_bind]. rewrite Hh.
  cbn [mbind option_bind Hash_.erase snd].
  by rewrite lookup_delete_eq.
Qed.

Lemma pin_inv f s s' :
  pin f s = Some s' → LRUhash_ s !! f = None ∧ s' = s.
Proof.
  destruct (LRUhash_ s !! f) as [it|] eqn:Hh.
  - rewrite pin_tracked by by eexists. done.
  - rewrite pin_untracked by done. by intros [= <-].
Qed.

Lemma unpin_full f s :
  (max_size_ s ≤ Size s)%N → unpin f s = s.
Proof.
  intros Hfull. unfold unpin.
  by rewrite (proj2 (N.leb_le _ _)).
Qed.

Lemma unpin_tracked f s : f ∈ (LRUlist_ s).*2 → unpin f s = s.
Proof.
  intros Hin. unfold unpin. rewrite (proj2 (scan_spec _ _) Hin).
  by destruct (_ <=? _)%N.
Qed.

Lemma unpin_insert f s :
  (Size s < max_size_ s)%N → f ∉ (LRUlist_ s).*2 →
  unpin f s =
    {| max_size_ := max_size_ s;
       LRUlist_ := (List_.fresh_node (LRUlist_ s), f) :: LRUlist_ s;
       LRUhash_ := <[f:=List_.fresh_node (LRUlist_ s)]> (LRUhash_ s) |}.
Proof.
  intros Hlt Hout. unfold unpin.
  rewrite (proj2 (N.leb_gt _ _)) by done.
  by rewrite (proj2 (scan_false _ _) Hout).
Qed.

(** ** The invariant is established and preserved *)

Lemma NoDup_unlink {A} (l1 l2 : list A) x :
  NoDup (l1 ++ x :: l2) → NoDup (l1 ++ l2) ∧ x ∉ l1 ++ l2.
Proof.
  rewrite <- Permutation_middle. intros Hnd%NoDup_cons. tauto.
Qed.

Lemma wf_new c : wf (LRUReplacer c).
Proof.
  split; simpl; try apply NoDup_nil_2.
  - intros f it. rewrite lookup_empty. split; [done|].
    by intros ?%elem_of_nil.
  - unfold List_.size. simpl. lia.
Qed.

(** Unlinking one node together with its map entry. *)
Lemma wf_unlink s l1 it f l2 :
  wf s → LRUlist_ s = l1 ++ (it, f) :: l2 →
  wf {| max_size_ := max_size_ s; LRUlist_ := l1 ++ l2;
        LRUhash_ := delete f (LRUhash_ s) |}.
Proof.
  intros [Hn Hf Hi Hc] Hl. rewrite Hl in Hn, Hf, Hc.
  rewrite fmap_app, fmap_cons in Hn. rewrite fmap_app, fmap_cons in Hf.
  apply NoDup_unlink in Hn as [Hn _].
  apply NoDup_unlink in Hf as [Hf Hout]. simpl in Hout.
  rewrite <- fmap_app in Hn. rewrite <- fmap_app in Hf, Hout.
  split; simpl; [done|done|..].
  - intros f' it'. rewrite lookup_delete_Some, Hi, Hl.
    rewrite !elem_of_app, elem_of_cons. split.
    + intros [Hne [?|[[= ? ?]|?]]]; auto. congruence.
    + intros Hin. split.
      * intros <-. apply Hout. apply list_elem_of_fmap.
        exists (it', f). split; [done|]. by apply elem_of_app.
      * tauto.
  - unfold List_.size in *. rewrite length_app in *. simpl in Hc. lia.
Qed.

(** Linking a new node at the front together with its map entry. *)
Lemma wf_link s f :
  wf s → (Size s < max_size_ s)%N → f ∉ (LRUlist_ s).*2 →
  wf {| max_size_ := max_size_ s;
        LRUlist_ := (List_.fresh_node (LRUlist_ s), f) :: LRUlist_ s;
        LRUhash_ := <[f:=List_.fresh_node (LRUlist_ s)]> (LRUhash_ s) |}.
Proof.
  intros [Hn Hf Hi Hc] Hlt Hout. split; simpl.
  - apply NoDup_cons. split; [apply fresh_node_fresh | done].
  - by apply NoDup_cons.
  - intros f' it'. rewrite lookup_insert_Some, Hi, elem_of_cons. split.
    + intros [[-> ->]|[_ ?]]; auto.
    + intros [[= -> ->]|Hin]; [auto|]. right. split; [|done].
      intros <-. apply Hout. apply list_elem_of_fmap. by exists (it', f).
  - unfold Size, List_.size in *. simpl. lia.
Qed.

Lemma wf_victim p m s b m' s' :
  wf s → victim p m s = Some (b, m', s') → wf s'.
Proof.
  intros Hwf [(_ & _ & _ & ->)|(a & l & it & v & _ & _ & Hl & _ & Hcase)]%victim_inv;
    [done|].
  destruct Hcase as [(_ & _ & ->)|(_ & _ & ->)]; [done|].
  rewrite <- (app_nil_r l). by eapply wf_unlink.
Qed.

Lemma wf_pin f s s' : wf s → pin f s = Some s' → wf s'.
Proof. by intros Hwf [_ ->]%pin_inv. Qed.

Lemma wf_unpin f s : wf s → wf (unpin f s).
Proof.
  intros Hwf. destruct (decide (max_size_ s ≤ Size s)%N) as [Hfull|Hroom].
  { by rewrite unpin_full. }
  destruct (decide (f ∈ (LRUlist_ s).*2)) as [Hin|Hout].
  { by rewrite unpin_tracked. }
  rewrite unpin_insert by (done || lia). apply wf_link; [done|lia|done].
Qed.

Lemma wf_exec c m s r m' s' :
  wf s → exec c (m, s) = Some (r, (m', s')) → wf s'.
Proof.
  intros Hwf. destruct c as [p|f|f|]; simpl.
  - destruct (victim p m s) as [[[b m1] s1]|] eqn:Hv; simpl; [|done].
    intros [= _ _ <-]. by eapply wf_victim.
  - destruct (pin f s) as [s1|] eqn:Hp; simpl; [|done].
    intros [= _ _ <-]. by eapply wf_pin.
  - intros [= _ _ <-]. by apply wf_unpin.
  - by intros [= _ _ <-].
Qed.

(** Unfolding one step of [run]. *)
Lemma run_cons_inv c cs w rs w' :
  run (c :: cs) w = Some (rs, w') →
  ∃ r w1 rs', exec c w = Some (r, w1) ∧ run cs w1 = Some (rs', w') ∧
              rs = r :: rs'.
Proof.
  simpl. destruct (exec c w) as [[r w1]|]; simpl; [|done].
  destruct (run cs w1) as [[rs' w'']|] eqn:Hr; simpl; [|done].
  intros [= <- <-]. by exists r, w1, rs'.
Qed.

Lemma wf_run cs m s rs m' s' :
  wf s → run cs (m, s) = Some (rs, (m', s')) → wf s'.
Proof.
  revert m s rs. induction cs as [|c cs IH]; intros m s rs Hwf.
  - by intros [= _ _ <-].
  - intros (r & [m1 s1] & rs' & He & Hr & _)%run_cons_inv.
    eapply IH; [|done]. by eapply wf_exec.
Qed.

Lemma reachable_wf c s : reachable c s → wf s.
Proof.
  intros (cs & m & rs & m' & Hrun). eapply wf_run; [apply wf_new | done].
Qed.

(** The capacity is fixed at construction. *)
Lemma max_size_exec c m s r m' s' :
  exec c (m, s) = Some (r, (m', s')) → max_size_ s' = max_size_ s.
Proof.
  destruct c as [p|f|f|]; simpl.
  - destruct (victim p m s) as [[[b m1] s1]|] eqn:Hv; simpl; [|done].
    intros [= _ _ <-].
    by apply victim_inv in Hv
      as [(_ & _ & _ & ->)
         |(a & l & it & v & _ & _ & _ & _ & [(_ & _ & ->)|(_ & _ & ->)])].
  - destruct (pin f s) as [s1|] eqn:Hp; simpl; [|done].
    intros [= _ _ <-].
    by apply pin_inv in Hp as [_ ->].
  - intros [= _ _ <-]. unfold unpin.
    by repeat match goal with |- context [if ?b then _ else _] =>
                destruct b end.
  - by intros [= _ _ <-].
Qed.

Lemma max_size_run cs m s rs m' s' :
  run cs (m, s) = Some (rs, (m', s')) → max_size_ s' = max_size_ s.
Proof.
  revert m s rs. induction cs as [|c cs IH]; intros m s rs.
  - by intros [= _ _ <-].
  - intros (r & [m1 s1] & rs' & He & Hr & _)%run_cons_inv.
    rewrite (IH _ _ _ Hr). by eapply max_size_exec.
Qed.

Lemma reachable_max_size c s : reachable c s → max_size_ s = c.
Proof.
  intros (cs & m & rs & m' & Hrun). by apply max_size_run in Hrun.
Qed.

(** ** Properties of single calls *)

(** C4. On a replacer with zero evictable frames [victim] answers "not found"
    (false), and the replacer after the call, recency list, index and
    capacity, is the replacer before the call. *)
Theorem victim_empty_not_found p m s :
  Size s = 0%N → ∃ m', victim p m s = Some (false, m', s).
Proof.
  unfold Size, List_.size. intros Hsz. exists m. apply victim_empty.
  destruct (LRUlist_ s); [done | simpl in Hsz; lia].
Qed.

Lemma victim_empty_not_found_witness :
  Size (LRUReplacer 3) = 0%N ∧
  ∃ m', victim (Some 0) {[0 := 42%Z]} (LRUReplacer 3)
        = Some (false, m', LRUReplacer 3).
Proof.
  split; [reflexivity|].
  apply (victim_empty_not_found (Some 0) {[0 := 42%Z]} (LRUReplacer 3)).
  reflexivity.
Defined.

(** C10. When [victim] answers "not found" on an empty replacer it writes
    nothing through its output parameter: the caller's memory after the call
    is the memory before it, so the cell the caller passed still holds its
    old value; setting the parameter to [nullptr] changes the local copy of
    the pointer only. This holds for every pointer, [nullptr] included. *)
Theorem victim_empty_keeps_output p m s :
  LRUlist_ s = [] →
  ∃ s', victim p m s = Some (false, m, s') ∧
        ∀ m', (∃ b s'', victim p m s = Some (b, m', s'')) →
              load p m' = load p m.
Proof.
  intros Hl. exists s. rewrite victim_empty by done. split; [done|].
  by intros m' (b & s'' & [= _ <- _]).
Qed.

Lemma victim_empty_keeps_output_witness :
  LRUlist_ (LRUReplacer 2) = [] ∧
  ∃ s', victim (Some 5) {[5 := 17%Z]} (LRUReplacer 2)
        = Some (false, {[5 := 17%Z]}, s') ∧
        ∀ m', (∃ b s'', victim (Some 5) {[5 := 17%Z]} (LRUReplacer 2)
                        = Some (b, m', s'')) →
              load (Some 5) m' = load (Some 5) {[5 := 17%Z]}.
Proof.
  split; [reflexivity|].
  apply (victim_empty_keeps_output (Some 5) {[5 := 17%Z]} (LRUReplacer 2)).
  reflexivity.
Defined.

(** C5. [unpin f] links [f] at the head of the recency list and records the
    iterator of that new head node in the index exactly when [f] is stored in
    no node and the evictable count is strictly below the capacity; when
    either guard fails the replacer is left as it was. [unpin] has no failing
    path: the call returns for every identifier. *)
Theorem unpin_inserts_iff_guards f s :
  (((f ∉ (LRUlist_ s).*2) ∧ (Size s < max_size_ s)%N) ↔
   (LRUlist_ (unpin f s)
    = (List_.begin (LRUlist_ (unpin f s)), f) :: LRUlist_ s ∧
    LRUhash_ (unpin f s)
    = <[f:=List_.begin (LRUlist_ (unpin f s))]> (LRUhash_ s))) ∧
  (¬ ((f ∉ (LRUlist_ s).*2) ∧ (Size s < max_size_ s)%N) →
   unpin f s = s) ∧
  (∀ m, exec (Unpin f) (m, s) = Some (Done, (m, unpin f s))).
Proof.
  assert (¬ ((f ∉ (LRUlist_ s).*2) ∧ (Size s < max_size_ s)%N) →
          unpin f s = s) as Hnoop.
  { intros Hg. destruct (decide (max_size_ s ≤ Size s)%N) as [Hfull|Hroom].
    { by apply unpin_full. }
    destruct (decide (f ∈ (LRUlist_ s).*2)) as [Hin|Hout].
    { by apply unpin_tracked. }
    exfalso. apply Hg. split; [done | lia]. }
  split_and!; [|done|done].
  split.
  - intros [Hout Hlt]. by rewrite unpin_insert.
  - intros [Hl _].
    destruct (decide ((f ∉ (LRUlist_ s).*2) ∧ (Size s < max_size_ s)%N))
      as [Hg|Hg]; [done|].
    rewrite (Hnoop Hg) in Hl. apply (f_equal length) in Hl.
    simpl in Hl. lia.
Qed.

(** [unpin f] twice in a row ends in the state that one [unpin f] ends
    in, in every state. *)
Lemma unpin_idempotent f s : unpin f (unpin f s) = unpin f s.
Proof.
  destruct (decide (max_size_ s ≤ Size s)%N) as [Hfull|Hroom].
  { rewrite (unpin_full f s Hfull). by apply unpin_full. }
  destruct (decide (f ∈ (LRUlist_ s).*2)) as [Hin|Hout].
  { rewrite (unpin_tracked f s Hin). by apply unpin_tracked. }
  rewrite (unpin_insert f s) by (done || lia).
  apply unpin_tracked. simpl. apply elem_of_cons. by left.
Qed.

(** C6. The code at the input where the claim fails: a replacer of capacity
    3 after [unpin(1)], a state the code reaches, has frame 1 in its index;
    [pin(1)] erases that entry and then reads [it->second] through the
    iterator of the erased entry, so the call has no defined result, and
    neither has [pin(1)] called twice in a row. *)
Theorem pin_evictable_frame_undefined :
  reachable 3 (unpin 1 (LRUReplacer 3)) ∧
  LRUhash_ (unpin 1 (LRUReplacer 3)) !! 1%Z = Some 1 ∧
  pin 1 (unpin 1 (LRUReplacer 3)) = None ∧
  pin 1 (unpin 1 (LRUReplacer 3)) ≫= pin 1 = None.
Proof.
  split_and!.
  - exists [Unpin 1], ∅, [Done], ∅. reflexivity.
  - vm_compute. reflexivity.
  - vm_compute. reflexivity.
  - vm_compute. reflexivity.
Qed.

(** ** Call sequences *)

Lemma run_cons c cs w r w1 rs w2 :
  exec c w = Some (r, w1) → run cs w1 = Some (rs, w2) →
  run (c :: cs) w = Some (r :: rs, w2).
Proof. intros He Hr. cbn [run]. rewrite He. simpl. by rewrite Hr. Qed.

Lemma run_app cs1 cs2 w rs1 w1 rs2 w2 :
  run cs1 w = Some (rs1, w1) → run cs2 w1 = Some (rs2, w2) →
  run (cs1 ++ cs2) w = Some (rs1 ++ rs2, w2).
Proof.
  revert w rs1. induction cs1 as [|c cs1 IH]; intros w rs1.
  - by intros [= <- <-].
  - intros (r & w' & rs' & He & Hr & ->)%run_cons_inv H2.
    eapply run_cons; [done|]. by apply IH.
Qed.

(** What [Size] reports is bounded by the capacity all along a run. *)
Lemma count_bound cs m s rs m' s' :
  wf s → run cs (m, s) = Some (rs, (m', s')) →
  ∀ n, Count n ∈ rs → (n ≤ max_size_ s)%N.
Proof.
  revert m s rs. induction cs as [|c cs IH]; intros m s rs Hwf.
  - intros [= <- _ _] n Hin. by apply elem_of_nil in Hin.
  - intros (r & [m1 s1] & rs' & He & Hr & ->)%run_cons_inv n.
    intros [<-|Hin]%elem_of_cons.
    + destruct c as [p|f|f|]; simpl in He.
      * destruct (victim p m s) as [[[??]?]|]; by simplify_eq/=.
      * destruct (pin f s); by simplify_eq/=.
      * by simplify_eq/=.
      * simplify_eq/=. apply Hwf.
    + rewrite <- (max_size_exec _ _ _ _ _ _ He).
      eapply IH; [|done..]. by eapply wf_exec.
Qed.

(** A frame that the index does not hold is not handed out, and stays out
    of the index, as long as it is not unpinned. *)
Lemma exec_untracked f c m s r m' s' :
  LRUhash_ s !! f = None → c ≠ Unpin f →
  exec c (m, s) = Some (r, (m', s')) →
  r ≠ Found true (Some f) ∧ LRUhash_ s' !! f = None.
Proof.
  intros Hf Hc. destruct c as [p|f'|f'|]; simpl.
  - destruct (victim p m s) as [[[b m1] s1]|] eqn:Hv; simpl; [|done].
    intros [= <- <- <-].
    apply victim_inv in Hv
      as [(_ & -> & _ & ->)
         |(a & l & it & v & -> & _ & _ & -> & [(-> & _ & ->)|(-> & Hh & ->)])];
      [done|done|].
    rewrite load_store. simpl. split.
    + intros [= ->]. rewrite Hf in Hh. by destruct Hh.
    + by apply lookup_delete_None; right.
  - destruct (pin f' s) as [s1|] eqn:Hp; simpl; [|done].
    intros [= <- _ <-]. split; [done|].
    by apply pin_inv in Hp as [_ ->].
  - intros [= <- _ <-]. split; [done|].
    unfold unpin. destruct (_ <=? _)%N; [done|].
    destruct (List_.scan _ _); [done|]. simpl.
    rewrite lookup_insert_ne; [done | congruence].
  - by intros [= <- _ <-].
Qed.

Lemma run_untracked f cs m s rs w :
  LRUhash_ s !! f = None → no_unpin f cs →
  run cs (m, s) = Some (rs, w) →
  (Found true (Some f) ∉ rs) ∧ LRUhash_ w.2 !! f = None.
Proof.
  unfold no_unpin. revert m s rs.
  induction cs as [|c cs IH]; intros m s rs Hf Hcs.
  - intros [= <- <-]. split; [apply not_elem_of_nil | done].
  - apply not_elem_of_cons in Hcs as [Hc Hcs].
    intros (r & [m1 s1] & rs' & He & Hr & ->)%run_cons_inv.
    destruct (exec_untracked f c m s r m1 s1) as [Hr1 Hf1]; [done..|].
    destruct (IH m1 s1 rs' Hf1 Hcs Hr) as [Hrs Hw].
    split; [|done]. by apply not_elem_of_cons.
Qed.

Lemma wf_untracked f s :
  wf s → LRUhash_ s !! f = None ↔ f ∉ (LRUlist_ s).*2.
Proof.
  intros Hwf. split.
  - intros Hh [[it f'] [-> Hin]]%list_elem_of_fmap. simpl in Hh.
    apply (wf_index s Hwf) in Hin. congruence.
  - intros Hout. destruct (LRUhash_ s !! f) as [it|] eqn:Hh; [|done].
    exfalso. apply Hout. apply (wf_index s Hwf) in Hh.
    apply list_elem_of_fmap. by exists (it, f).
Qed.

(** Unpinning distinct untracked frames while there is room links them one
    after the other at the front. *)
Lemma run_unpins us m s :
  wf s → NoDup us → (∀ u, u ∈ us → u ∉ (LRUlist_ s).*2) →
  (Size s + N.of_nat (length us) ≤ max_size_ s)%N →
  ∃ s', run (Unpin <$> us) (m, s)
        = Some (replicate (length us) Done, (m, s')) ∧
        wf s' ∧ max_size_ s' = max_size_ s ∧
        (LRUlist_ s').*2 = reverse us ++ (LRUlist_ s).*2.
Proof.
  revert s. induction us as [|u us IH]; intros s Hwf Hnd Hout Hroom.
  - exists s. by rewrite reverse_nil.
  - apply NoDup_cons in Hnd as [Hu Hnd]. simpl in Hroom.
    assert (unpin u s =
            {| max_size_ := max_size_ s;
               LRUlist_ := (List_.fresh_node (LRUlist_ s), u) :: LRUlist_ s;
               LRUhash_ := <[u:=List_.fresh_node (LRUlist_ s)]> (LRUhash_ s) |})
      as Hins.
    { apply unpin_insert; [lia|]. apply Hout, elem_of_cons. by left. }
    destruct (IH (unpin u s)) as (s' & Hrun & Hwf' & Hmax & Hvals).
    + by apply wf_unpin.
    + done.
    + intros u' Hu'. rewrite Hins. simpl. apply not_elem_of_cons. split.
      * by intros ->.
      * apply Hout, elem_of_cons. by right.
    + rewrite Hins. unfold Size, List_.size in *. simpl. lia.
    + exists s'. split_and!; [|done|..].
      * rewrite fmap_cons. by eapply run_cons.
      * by rewrite Hmax, Hins.
      * rewrite Hvals, Hins, reverse_cons. simpl. by rewrite <- app_assoc.
Qed.

(** As many [victim] calls as there are evictable frames hand them out from
    the back to the front and leave the replacer empty. *)
Lemma run_victims a (l : list node) :
  ∀ m s, wf s → LRUlist_ s = l → is_Some (m !! a) →
  ∃ m', run (replicate (length l) (Victim (Some a))) (m, s)
        = Some ((λ u, Found true (Some u)) <$> reverse (l.*2),
                (m', LRUReplacer (max_size_ s))).
Proof.
  induction l as [|[it v] l IH] using rev_ind; intros m s Hwf Hl Ha.
  - exists m. simpl. do 3 f_equal. destruct s as [c l h]. simpl in *.
    subst l. unfold LRUReplacer. f_equal. apply map_eq. intros f.
    rewrite lookup_empty. destruct (h !! f) as [it|] eqn:Hh; [|done].
    apply (wf_index _ Hwf) in Hh. by apply elem_of_nil in Hh.
  - assert (LRUhash_ s !! v = Some it) as Hh.
    { apply (wf_index _ Hwf). rewrite Hl. apply elem_of_app. right.
      apply elem_of_cons. by left. }
    pose proof (victim_hit a m s l it v Hl Ha (mk_is_Some _ _ Hh)) as Hv.
    destruct (IH (<[a:=v]> m)
                {| max_size_ := max_size_ s; LRUlist_ := l;
                   LRUhash_ := delete v (LRUhash_ s) |})
      as [m' Hrun].
    + by eapply wf_victim.
    + done.
    + rewrite lookup_insert_is_Some. by left.
    + exists m'. rewrite length_app, Nat.add_1_r. cbn [replicate].
      rewrite fmap_app, reverse_app. cbn [fmap list_fmap reverse rev_append app].
      eapply run_cons; [|done].
      cbn [exec]. rewrite Hv. cbn [mbind option_bind]. by rewrite load_store.
Qed.

(** ** Properties of call sequences *)

(** C1. Whatever the capacity [c], unpinning distinct frames [us], at most
    [c] of them, on a fresh replacer and then calling [victim] once per frame
    makes every one of these calls succeed, and they hand out the frames in
    the order in which they were unpinned, oldest first, leaving the
    replacer empty. Every successful [victim] hands out the frame of the
    back node of the recency list and removes that node from the list and
    that frame from the index. *)
Theorem victim_lru_order c us a m :
  NoDup us → (N.of_nat (length us) ≤ c)%N → is_Some (m !! a) →
  (∃ m', run ((Unpin <$> us) ++ replicate (length us) (Victim (Some a)))
             (m, LRUReplacer c)
         = Some (replicate (length us) Done ++
                 ((λ u, Found true (Some u)) <$> us),
                 (m', LRUReplacer c))) ∧
  (∀ p m0 s m' s',
     victim p m0 s = Some (true, m', s') →
     ∃ l it v,
       LRUlist_ s = l ++ [(it, v)] ∧ load p m' = Some v ∧
       LRUlist_ s' = l ∧ LRUhash_ s' = delete v (LRUhash_ s)).
Proof.
  intros Hnd Hlen Ha. split.
  - destruct (run_unpins us m (LRUReplacer c))
      as (s1 & Hrun1 & Hwf1 & Hmax1 & Hvals1).
    { apply wf_new. } { done. }
    { intros u _. apply not_elem_of_nil. }
    { unfold Size, List_.size. simpl. lia. }
    simpl in Hvals1. rewrite app_nil_r in Hvals1.
    destruct (run_victims a (LRUlist_ s1) m s1 Hwf1 eq_refl Ha)
      as [m' Hrun2].
    rewrite Hvals1, reverse_involutive, Hmax1 in Hrun2. simpl in Hrun2.
    assert (length (LRUlist_ s1) = length us) as Hlen1.
    { by rewrite <- (length_fmap snd), Hvals1, length_reverse. }
    rewrite Hlen1 in Hrun2. exists m'. by eapply run_app.
  - intros p m0 s m' s' Hv.
    apply victim_inv in Hv
      as [(_ & [=] & _)
         |(a' & l & it & v & -> & _ & Hl & -> & [([=] & _)|(_ & _ & ->)])].
    exists l, it, v. by rewrite load_store.
Qed.

Lemma victim_lru_order_witness :
  NoDup [4%Z; 9%Z; 2%Z] ∧ (N.of_nat (length [4%Z; 9%Z; 2%Z]) ≤ 3)%N ∧
  is_Some (({[0 := 0%Z]} : gmap nat Z) !! 0) ∧
  ∃ m', run [Unpin 4; Unpin 9; Unpin 2;
             Victim (Some 0); Victim (Some 0); Victim (Some 0)]
            ({[0 := 0%Z]}, LRUReplacer 3)
        = Some ([Done; Done; Done; Found true (Some 4%Z);
                 Found true (Some 9%Z); Found true (Some 2%Z)],
                (m', LRUReplacer 3)).
Proof.
  assert (NoDup [4%Z; 9%Z; 2%Z]) as Hnd.
  { apply (bool_decide_unpack _). vm_compute. exact I. }
  assert (N.of_nat (length [4%Z; 9%Z; 2%Z]) ≤ 3)%N as Hlen.
  { vm_compute. discriminate. }
  assert (is_Some (({[0 := 0%Z]} : gmap nat Z) !! 0)) as Ha.
  { exists 0%Z. reflexivity. }
  split_and!; [done..|].
  exact (proj1 (victim_lru_order 3 [4%Z; 9%Z; 2%Z] 0 {[0 := 0%Z]}
                  Hnd Hlen Ha)).
Defined.

(** C2. Whatever the capacity [c] given at construction, after every
    sequence of [victim], [pin], [unpin] and [Size] calls on a fresh replacer
    the number of evictable frames is at most [c], and so is every count
    that a [Size] call of the sequence reported. *)
Theorem size_within_capacity c cs m rs m' s :
  run cs (m, LRUReplacer c) = Some (rs, (m', s)) →
  (Size s ≤ c)%N ∧ ∀ n, Count n ∈ rs → (n ≤ c)%N.
Proof.
  intros Hrun. split.
  - pose proof (max_size_run _ _ _ _ _ _ Hrun) as Hmax. simpl in Hmax.
    rewrite <- Hmax. apply (wf_capacity s).
    eapply wf_run; [apply wf_new | done].
  - eapply (count_bound _ _ (LRUReplacer c)); [apply wf_new | done].
Qed.

Lemma size_within_capacity_witness :
  run [Unpin 5; GetSize; Unpin 6; GetSize; Victim (Some 0); GetSize]
      ({[0 := 0%Z]}, LRUReplacer 1)
  = Some ([Done; Count 1; Done; Count 1; Found true (Some 5%Z); Count 0],
          ({[0 := 5%Z]}, LRUReplacer 1)) ∧
  (Size (LRUReplacer 1) ≤ 1)%N ∧
  ∀ n, Count n ∈ [Done; Count 1; Done; Count 1; Found true (Some 5%Z);
                  Count 0] → (n ≤ 1)%N.
Proof.
  assert (run [Unpin 5; GetSize; Unpin 6; GetSize; Victim (Some 0); GetSize]
              ({[0 := 0%Z]}, LRUReplacer 1)
          = Some ([Done; Count 1; Done; Count 1; Found true (Some 5%Z);
                   Count 0],
                  ({[0 := 5%Z]}, LRUReplacer 1))) as Hrun.
  { vm_compute. reflexivity. }
  split; [exact Hrun|].
  exact (size_within_capacity 1 _ _ _ _ _ Hrun).
Defined.

(** C3. In every state that a sequence of [victim], [pin] and [unpin] calls
    reaches from a fresh replacer, no frame identifier is stored in two
    nodes of the recency list; and [unpin] of a frame that is stored in the
    list adds no entry: it leaves the replacer as it is. *)
Theorem no_duplicate_frames c s :
  reachable c s →
  NoDup (LRUlist_ s).*2 ∧ ∀ f, f ∈ (LRUlist_ s).*2 → unpin f s = s.
Proof.
  intros Hwf%reachable_wf. split; [apply Hwf|].
  intros f. apply unpin_tracked.
Qed.

Lemma no_duplicate_frames_witness :
  reachable 4 (unpin 7 (unpin 7 (LRUReplacer 4))) ∧
  NoDup (LRUlist_ (unpin 7 (unpin 7 (LRUReplacer 4)))).*2 ∧
  ∀ f, f ∈ (LRUlist_ (unpin 7 (unpin 7 (LRUReplacer 4)))).*2 →
       unpin f (unpin 7 (unpin 7 (LRUReplacer 4)))
       = unpin 7 (unpin 7 (LRUReplacer 4)).
Proof.
  assert (reachable 4 (unpin 7 (unpin 7 (LRUReplacer 4)))) as Hreach.
  { exists [Unpin 7; Unpin 7], ∅, [Done; Done], ∅. reflexivity. }
  split; [exact Hreach|].
  exact (no_duplicate_frames 4 _ Hreach).
Defined.

(** C8. In every state that a sequence of [victim], [pin] and [unpin] calls
    reaches from a fresh replacer, the keys of the index are exactly the
    frame identifiers stored in the recency list, and the index maps a frame
    to an iterator exactly when the node at that iterator stores the frame;
    nodes have distinct addresses, so the iterator designates one
    position. *)
Theorem index_matches_list c s :
  reachable c s →
  dom (LRUhash_ s) = list_to_set (LRUlist_ s).*2 ∧
  (∀ f it, LRUhash_ s !! f = Some it ↔ (it, f) ∈ LRUlist_ s) ∧
  NoDup (LRUlist_ s).*1.
Proof.
  intros Hwf%reachable_wf. split_and!; [|apply Hwf..].
  apply set_eq. intros f.
  rewrite elem_of_dom, elem_of_list_to_set, list_elem_of_fmap. split.
  - intros [it Hh]. exists (it, f). split; [done|]. by apply Hwf.
  - intros [[it f'] [-> Hin]]. exists it. by apply Hwf.
Qed.

Lemma index_matches_list_witness :
  reachable 3 (unpin 2 (unpin 1 (LRUReplacer 3))) ∧
  dom (LRUhash_ (unpin 2 (unpin 1 (LRUReplacer 3))))
  = list_to_set (LRUlist_ (unpin 2 (unpin 1 (LRUReplacer 3)))).*2 ∧
  (∀ f it, LRUhash_ (unpin 2 (unpin 1 (LRUReplacer 3))) !! f = Some it ↔
           (it, f) ∈ LRUlist_ (unpin 2 (unpin 1 (LRUReplacer 3)))) ∧
  NoDup (LRUlist_ (unpin 2 (unpin 1 (LRUReplacer 3)))).*1.
Proof.
  assert (reachable 3 (unpin 2 (unpin 1 (LRUReplacer 3)))) as Hreach.
  { exists [Unpin 1; Unpin 2], ∅, [Done; Done], ∅. reflexivity. }
  split; [exact Hreach|].
  exact (index_matches_list 3 _ Hreach).
Defined.

(** C9. In every state that a sequence of [victim], [pin] and [unpin] calls
    reaches from a fresh replacer, the check in [victim] cannot fail: erasing
    the frame of the back node from the index removes one entry, so [victim]
    answers false on the empty list only, and on a non-empty list a call
    with a valid output pointer answers true and pops the back node. *)
Theorem victim_check_never_fails c s :
  reachable c s →
  (∀ v, List_.back (LRUlist_ s) = Some v →
        (Hash_.erase v (LRUhash_ s)).1 = 1) ∧
  (∀ p m m' s', victim p m s = Some (false, m', s') → LRUlist_ s = []) ∧
  (∀ a m, LRUlist_ s ≠ [] → is_Some (m !! a) →
          ∃ m' s', victim (Some a) m s = Some (true, m', s') ∧
                   LRUlist_ s' = List_.pop_back (LRUlist_ s)).
Proof.
  intros Hwf%reachable_wf.
  assert (∀ l it v, LRUlist_ s = l ++ [(it, v)] →
                    LRUhash_ s !! v = Some it) as Hback.
  { intros l it v Hl. apply (wf_index s Hwf). rewrite Hl.
    apply elem_of_app. right. apply elem_of_cons. by left. }
  split_and!.
  - intros v Hv.
    destruct (snoc_cases (LRUlist_ s)) as [Hl|(l & it & v' & Hl)].
    { by rewrite Hl in Hv. }
    rewrite Hl, back_snoc in Hv. injection Hv as <-.
    unfold Hash_.erase. simpl. by rewrite (Hback l it v' Hl).
  - intros p m m' s' Hv.
    apply victim_inv in Hv
      as [(Hl & _)
         |(a & l & it & v & _ & _ & Hl & _ & [(_ & Hh & _)|([=] & _)])];
      [done|].
    by rewrite (Hback l it v Hl) in Hh.
  - intros a m Hne Ha.
    destruct (snoc_cases (LRUlist_ s)) as [Hl|(l & it & v & Hl)]; [done|].
    erewrite victim_hit; [|done|done|by rewrite (Hback l it v Hl)].
    eexists _, _. split; [done|]. simpl. by rewrite Hl, pop_back_snoc.
Qed.

Lemma victim_check_never_fails_witness :
  reachable 3 (unpin 2 (unpin 1 (LRUReplacer 3))) ∧
  (∀ v, List_.back (LRUlist_ (unpin 2 (unpin 1 (LRUReplacer 3)))) = Some v →
        (Hash_.erase v (LRUhash_ (unpin 2 (unpin 1 (LRUReplacer 3))))).1
        = 1) ∧
  (∀ p m m' s',
     victim p m (unpin 2 (unpin 1 (LRUReplacer 3))) = Some (false, m', s') →
     LRUlist_ (unpin 2 (unpin 1 (LRUReplacer 3))) = []) ∧
  (∀ a m, LRUlist_ (unpin 2 (unpin 1 (LRUReplacer 3))) ≠ [] →
          is_Some (m !! a) →
          ∃ m' s',
            victim (Some a) m (unpin 2 (unpin 1 (LRUReplacer 3)))
            = Some (true, m', s') ∧
            LRUlist_ s'
            = List_.pop_back (LRUlist_ (unpin 2 (unpin 1 (LRUReplacer 3))))).
Proof.
  assert (reachable 3 (unpin 2 (unpin 1 (LRUReplacer 3)))) as Hreach.
  { exists [Unpin 1; Unpin 2], ∅, [Done; Done], ∅. reflexivity. }
  split; [exact Hreach|].
  exact (victim_check_never_fails 3 _ Hreach).
Defined.

(** C7. The code at the input where the claim fails: on a replacer of
    capacity 3, after [unpin(1)], [unpin(2)], [unpin(3)], frame 2 is
    evictable; [pin(2)] erases the index entry of frame 2 and then reads
    [it->second] through the iterator of the erased entry, so the call has
    no defined result and neither has any [victim] call after it. *)
Theorem pin_then_victim_undefined :
  reachable 3 (unpin 3 (unpin 2 (unpin 1 (LRUReplacer 3)))) ∧
  (2%Z ∈ (LRUlist_ (unpin 3 (unpin 2 (unpin 1 (LRUReplacer 3))))).*2) ∧
  pin 2 (unpin 3 (unpin 2 (unpin 1 (LRUReplacer 3)))) = None ∧
  run [Unpin 1; Unpin 2; Unpin 3; Pin 2; Victim (Some 0)]
      ({[0 := 0%Z]}, LRUReplacer 3)
  = None.
Proof.
  split_and!.
  - exists [Unpin 1; Unpin 2; Unpin 3], ∅, [Done; Done; Done], ∅.
    reflexivity.
  - apply (bool_decide_unpack _). vm_compute. exact I.
  - vm_compute. reflexivity.
  - vm_compute. reflexivity.
Qed.

(** ** Further properties of the operations *)

Lemma wf_dom s : wf s → dom (LRUhash_ s) = list_to_set (LRUlist_ s).*2.
Proof.
  intros Hwf. apply set_eq. intros f.
  rewrite elem_of_dom, elem_of_list_to_set, list_elem_of_fmap. split.
  - intros [it Hh]. exists (it, f). split; [done|]. by apply Hwf.
  - intros [[it f'] [-> Hin]]. exists it. by apply Hwf.
Qed.

(** X1. [victim] writes to no cell of the caller's memory other than the one
    its argument points to, and it neither allocates nor frees a cell. *)
Theorem victim_writes_only_its_cell p m s b m' s' :
  victim p m s = Some (b, m', s') →
  (∀ a, p ≠ Some a → m' !! a = m !! a) ∧ dom m' = dom m.
Proof.
  intros [(_ & _ & -> & _)|(a & l & it & v & -> & Ha & _ & -> & _)]%victim_inv;
    [done|].
  split.
  - intros a' Hne. apply lookup_insert_ne. congruence.
  - rewrite dom_insert_L. apply elem_of_dom in Ha.
    apply set_eq. intros a'. rewrite elem_of_union, elem_of_singleton.
    split; [intros [->|?]; done | auto].
Qed.

Lemma victim_writes_only_its_cell_witness :
  victim (Some 0) {[0 := 7%Z; 1 := 8%Z]} (unpin 5 (LRUReplacer 2))
  = Some (true, {[0 := 5%Z; 1 := 8%Z]}, LRUReplacer 2) ∧
  (∀ a, Some 0 ≠ Some a →
        ({[0 := 5%Z; 1 := 8%Z]} : gmap nat Z) !! a
        = ({[0 := 7%Z; 1 := 8%Z]} : gmap nat Z) !! a) ∧
  dom ({[0 := 5%Z; 1 := 8%Z]} : gmap nat Z)
  = dom ({[0 := 7%Z; 1 := 8%Z]} : gmap nat Z).
Proof.
  assert (victim (Some 0) {[0 := 7%Z; 1 := 8%Z]} (unpin 5 (LRUReplacer 2))
          = Some (true, {[0 := 5%Z; 1 := 8%Z]}, LRUReplacer 2)) as Hv.
  { vm_compute. reflexivity. }
  split; [exact Hv|].
  exact (victim_writes_only_its_cell _ _ _ _ _ _ Hv).
Defined.

(** X2. On a non-empty recency list [victim] dereferences its argument
    without a check: the call is defined exactly when the argument points
    to a cell of the caller; with [nullptr] or a pointer to no cell it is
    undefined. *)
Theorem victim_defined_iff_pointer_valid p m s :
  LRUlist_ s ≠ [] → is_Some (victim p m s) ↔ is_Some (load p m).
Proof.
  intros Hne. split.
  - intros [[[b m'] s'] Hv].
    apply victim_inv in Hv
      as [(Hl & _)|(a & l & it & v & -> & Ha & _)]; done.
  - destruct p as [a|]; simpl; [|by intros [? ?]]. intros Ha.
    destruct (snoc_cases (LRUlist_ s)) as [Hl|(l & it & v & Hl)]; [done|].
    destruct (LRUhash_ s !! v) as [it'|] eqn:Hh.
    + erewrite victim_hit by (done || by eexists). by eexists.
    + erewrite victim_miss by done. by eexists.
Qed.

Lemma victim_defined_iff_pointer_valid_witness :
  LRUlist_ (unpin 5 (LRUReplacer 2)) ≠ [] ∧
  (is_Some (victim None {[0 := 7%Z]} (unpin 5 (LRUReplacer 2))) ↔
   is_Some (load None {[0 := 7%Z]})) ∧
  victim None {[0 := 7%Z]} (unpin 5 (LRUReplacer 2)) = None.
Proof.
  assert (LRUlist_ (unpin 5 (LRUReplacer 2)) ≠ []) as Hne.
  { vm_compute. discriminate. }
  split; [exact Hne|]. split.
  - exact (victim_defined_iff_pointer_valid None {[0 := 7%Z]} _ Hne).
  - reflexivity.
Defined.

(** X3. The size step of [victim]: a call that returns true leaves one
    evictable frame fewer, a call that returns false leaves as many as
    before, in every state. *)
Theorem victim_size_step p m s b m' s' :
  victim p m s = Some (b, m', s') →
  Size s = (Size s' + if b then 1 else 0)%N.
Proof.
  intros [(_ & -> & _ & ->)
         |(a & l & it & v & _ & _ & Hl & _ &
           [(-> & _ & ->)|(-> & _ & ->)])]%victim_inv.
  - lia.
  - lia.
  - unfold Size, List_.size. rewrite Hl, length_app. simpl. lia.
Qed.

Lemma victim_size_step_witness :
  victim (Some 0) {[0 := 7%Z]} (unpin 5 (LRUReplacer 2))
  = Some (true, {[0 := 5%Z]}, LRUReplacer 2) ∧
  Size (unpin 5 (LRUReplacer 2)) = (Size (LRUReplacer 2) + 1)%N.
Proof.
  assert (victim (Some 0) {[0 := 7%Z]} (unpin 5 (LRUReplacer 2))
          = Some (true, {[0 := 5%Z]}, LRUReplacer 2)) as Hv.
  { vm_compute. reflexivity. }
  split; [exact Hv|].
  exact (victim_size_step _ _ _ _ _ _ Hv).
Defined.

(** X4. In a reachable state [pin f] has a defined result exactly when [f]
    is not evictable, and then it leaves the replacer as it is: on an
    evictable frame the read of [it->second] comes after the erase of the
    entry it reads. *)
Theorem pin_defined_iff_not_evictable c s f :
  reachable c s →
  (is_Some (pin f s) ↔ f ∉ (LRUlist_ s).*2) ∧
  (∀ s', pin f s = Some s' → s' = s).
Proof.
  intros Hwf%reachable_wf. split.
  - rewrite <- (wf_untracked f s Hwf). split.
    + intros [s' Hp]. by apply pin_inv in Hp as [Hh _].
    + intros Hh. rewrite pin_untracked by done. by eexists.
  - intros s' Hp. by apply pin_inv in Hp as [_ ->].
Qed.

Lemma pin_defined_iff_not_evictable_witness :
  reachable 3 (unpin 2 (unpin 1 (LRUReplacer 3))) ∧
  (is_Some (pin 2 (unpin 2 (unpin 1 (LRUReplacer 3)))) ↔
   2%Z ∉ (LRUlist_ (unpin 2 (unpin 1 (LRUReplacer 3)))).*2) ∧
  (∀ s', pin 2 (unpin 2 (unpin 1 (LRUReplacer 3))) = Some s' →
         s' = unpin 2 (unpin 1 (LRUReplacer 3))).
Proof.
  assert (reachable 3 (unpin 2 (unpin 1 (LRUReplacer 3)))) as Hreach.
  { exists [Unpin 1; Unpin 2], ∅, [Done; Done], ∅. reflexivity. }
  split; [exact Hreach|].
  exact (pin_defined_iff_not_evictable 3 _ 2%Z Hreach).
Defined.

(** X8. In a reachable state the index holds as many entries as the recency
    list holds nodes: the count that [Size] reports is also the size of
    the index. *)
Theorem index_size_is_Size c s :
  reachable c s → N.of_nat (size (LRUhash_ s)) = Size s.
Proof.
  intros Hwf%reachable_wf. unfold Size, List_.size. f_equal.
  rewrite <- size_dom, (wf_dom s Hwf), size_list_to_set by apply Hwf.
  apply length_fmap.
Qed.

Lemma index_size_is_Size_witness :
  reachable 3 (unpin 2 (unpin 1 (LRUReplacer 3))) ∧
  N.of_nat (size (LRUhash_ (unpin 2 (unpin 1 (LRUReplacer 3)))))
  = Size (unpin 2 (unpin 1 (LRUReplacer 3))).
Proof.
  assert (reachable 3 (unpin 2 (unpin 1 (LRUReplacer 3)))) as Hreach.
  { exists [Unpin 1; Unpin 2], ∅, [Done; Done], ∅. reflexivity. }
  split; [exact Hreach|].
  exact (index_size_is_Size 3 _ Hreach).
Defined.

(** X9. A replacer constructed with capacity 0 never tracks a frame: after
    every sequence of calls it is the replacer that was constructed, no
    [victim] call has returned true, and the caller's memory is as it was. *)
Theorem zero_capacity_inert cs m rs m' s :
  run cs (m, LRUReplacer 0) = Some (rs, (m', s)) →
  s = LRUReplacer 0 ∧ m' = m ∧ ∀ v, Found true v ∉ rs.
Proof.
  revert rs. induction cs as [|c cs IH]; intros rs.
  - intros [= <- <- <-]. split_and!; [done..|]. intros v. apply not_elem_of_nil.
  - intros (r & [m1 s1] & rs' & He & Hr & ->)%run_cons_inv.
    assert (m1 = m ∧ s1 = LRUReplacer 0 ∧ ∀ v, r ≠ Found true v)
      as (-> & -> & Hr0).
    { destruct c as [p|f|f|]; simpl in He; injection He as <- <- <-;
        by split_and!. }
    destruct (IH rs' Hr) as (-> & -> & Hrs). split_and!; [done..|].
    intros v. apply not_elem_of_cons. split; [|done]. intros Heq.
    by apply (Hr0 v).
Qed.

Lemma zero_capacity_inert_witness :
  run [Unpin 1; GetSize; Victim (Some 0); Pin 1; Unpin 2; Victim None]
      ({[0 := 9%Z]}, LRUReplacer 0)
  = Some ([Done; Count 0; Found false (Some 9%Z); Done; Done;
           Found false None],
          ({[0 := 9%Z]}, LRUReplacer 0)) ∧
  LRUReplacer 0 = LRUReplacer 0 ∧
  ({[0 := 9%Z]} : gmap nat Z) = {[0 := 9%Z]} ∧
  ∀ v, Found true v
         ∉ [Done; Count 0; Found false (Some 9%Z); Done; Done;
            Found false None].
Proof.
  assert (run [Unpin 1; GetSize; Victim (Some 0); Pin 1; Unpin 2;
               Victim None]
              ({[0 := 9%Z]}, LRUReplacer 0)
          = Some ([Done; Count 0; Found false (Some 9%Z); Done; Done;
                   Found false None],
                  ({[0 := 9%Z]}, LRUReplacer 0))) as Hrun.
  { vm_compute. reflexivity. }
  split; [exact Hrun|].
  exact (zero_capacity_inert _ _ _ _ _ Hrun).
Defined.

(** A call with a valid output pointer, other than [pin] of a frame in the
    index, returns, and the caller's cells stay allocated. *)
Lemma exec_defined c m s :
  valid_call m c → (∀ f, c = Pin f → LRUhash_ s !! f = None) →
  ∃ r m' s', exec c (m, s) = Some (r, (m', s')) ∧
             ∀ p, is_Some (load p m) → is_Some (load p m').
Proof.
  intros Hc Hpin. destruct c as [[a|]|f|f|]; simpl in *.
  - destruct (snoc_cases (LRUlist_ s)) as [Hl|(l & it & v & Hl)].
    + rewrite victim_empty by done. simpl. eauto 10.
    + assert (∀ p, is_Some (load p m) → is_Some (load p (<[a:=v]> m)))
        as Hdom.
      { intros [a'|]; simpl; [|done]. rewrite lookup_insert_is_Some.
        destruct (decide (a = a')); auto. }
      destruct (LRUhash_ s !! v) as [it'|] eqn:Hh.
      * erewrite victim_hit by (done || by eexists). simpl. eauto 10.
      * erewrite victim_miss by done. simpl. eauto 10.
  - by destruct Hc.
  - rewrite pin_untracked by auto. simpl. eauto 10.
  - eauto 10.
  - eauto 10.
Qed.

Lemma run_defined cs m s :
  Forall (valid_call m) cs →
  (∀ f, Pin f ∈ cs → LRUhash_ s !! f = None ∧ Unpin f ∉ cs) →
  ∃ rs m' s', run cs (m, s) = Some (rs, (m', s')) ∧ length rs = length cs.
Proof.
  revert m s. induction cs as [|c cs IH]; intros m s Hcs Hpin.
  { by exists [], m, s. }
  apply Forall_cons in Hcs as [Hc Hcs].
  destruct (exec_defined c m s Hc) as (r & m1 & s1 & He & Hdom).
  { intros f ->. apply Hpin, elem_of_cons. by left. }
  destruct (IH m1 s1) as (rs & m' & s' & Hr & Hlen).
  { eapply Forall_impl; [done|]. intros [p| | |]; simpl; auto. }
  { intros f Hin.
    destruct (Hpin f) as [Hh Hno]; [apply elem_of_cons; by right|].
    apply not_elem_of_cons in Hno as [Hne Hno]. split; [|done].
    eapply (exec_untracked f c); [done| |done]. congruence. }
  exists (r :: rs), m', s'. split; [by eapply run_cons|].
  simpl. by rewrite Hlen.
Qed.

(** X10. Starting from a fresh replacer, a sequence of calls runs to its
    end, with one result per call, when each [victim] call passes a pointer
    to a cell of the caller and no frame that the sequence pins is also
    unpinned in it: [victim], [unpin] and [Size] have no other undefined
    case, and [pin] of a frame that was never unpinned changes nothing. *)
Theorem fresh_run_defined c cs m :
  Forall (valid_call m) cs → (∀ f, Pin f ∈ cs → Unpin f ∉ cs) →
  ∃ rs m' s, run cs (m, LRUReplacer c) = Some (rs, (m', s)) ∧
             length rs = length cs.
Proof.
  intros Hcs Hpin. apply run_defined; [done|].
  intros f Hin. split; [apply lookup_empty | by apply Hpin].
Qed.

Lemma fresh_run_defined_witness :
  Forall (valid_call {[0 := 0%Z]}) [Unpin 1; Pin 2; Victim (Some 0)] ∧
  (∀ f, Pin f ∈ [Unpin 1; Pin 2; Victim (Some 0)] →
        Unpin f ∉ [Unpin 1; Pin 2; Victim (Some 0)]) ∧
  ∃ rs m' s,
    run [Unpin 1; Pin 2; Victim (Some 0)] ({[0 := 0%Z]}, LRUReplacer 2)
    = Some (rs, (m', s)) ∧
    length rs = length [Unpin 1; Pin 2; Victim (Some 0)].
Proof.
  assert (Forall (valid_call {[0 := 0%Z]}) [Unpin 1; Pin 2; Victim (Some 0)])
    as Hcs.
  { repeat apply Forall_cons_2; try apply Forall_nil_2; simpl; try exact I.
    exists 0%Z. reflexivity. }
  assert (∀ f, Pin f ∈ [Unpin 1; Pin 2; Victim (Some 0)] →
               Unpin f ∉ [Unpin 1; Pin 2; Victim (Some 0)]) as Hpin.
  { intros f Hin.
    apply elem_of_cons in Hin as [[=]|Hin].
    apply elem_of_cons in Hin as [[= ->]|Hin].
    - apply (bool_decide_unpack _). vm_compute. exact I.
    - apply elem_of_cons in Hin as [[=]|Hin]. by apply elem_of_nil in Hin. }
  split_and!; [done..|].
  exact (fresh_run_defined 2 _ _ Hcs Hpin).
Defined.

(** X11. The capacity guard of [unpin] drops the frame without a trace: when
    a reachable replacer is full, [unpin f] of a frame that is not
    evictable changes nothing, and no later [victim] call hands out [f]
    unless [f] is unpinned again. *)
Theorem unpin_on_full_is_lost c s f cs m rs m' s' :
  reachable c s → Size s = c → f ∉ (LRUlist_ s).*2 → no_unpin f cs →
  run (Unpin f :: cs) (m, s) = Some (rs, (m', s')) →
  unpin f s = s ∧ (Found true (Some f) ∉ rs) ∧ (f ∉ (LRUlist_ s').*2).
Proof.
  intros Hreach Hsz Hout Hcs Hrun.
  pose proof (reachable_wf c s Hreach) as Hwf.
  pose proof (reachable_max_size c s Hreach) as Hmax.
  assert (unpin f s = s) as Hu.
  { apply unpin_full. lia. }
  split; [done|].
  apply run_cons_inv in Hrun as (r & w1 & rs' & He & Hr & ->).
  simpl in He. rewrite Hu in He. injection He as <- <-.
  destruct (run_untracked f cs m s rs' (m', s')) as [Hrs Hf'];
    [by apply wf_untracked|done..|].
  split.
  - apply not_elem_of_cons. split; [done|done].
  - apply wf_untracked; [|done]. by eapply wf_run.
Qed.

Lemma unpin_on_full_is_lost_witness :
  reachable 1 (unpin 5 (LRUReplacer 1)) ∧
  Size (unpin 5 (LRUReplacer 1)) = 1%N ∧
  (6%Z ∉ (LRUlist_ (unpin 5 (LRUReplacer 1))).*2) ∧
  no_unpin 6 [Victim (Some 0); Victim (Some 0)] ∧
  run [Unpin 6; Victim (Some 0); Victim (Some 0)]
      ({[0 := 0%Z]}, unpin 5 (LRUReplacer 1))
  = Some ([Done; Found true (Some 5%Z); Found false (Some 5%Z)],
          ({[0 := 5%Z]}, LRUReplacer 1)) ∧
  unpin 6 (unpin 5 (LRUReplacer 1)) = unpin 5 (LRUReplacer 1) ∧
  (Found true (Some 6%Z)
     ∉ [Done; Found true (Some 5%Z); Found false (Some 5%Z)]) ∧
  (6%Z ∉ (LRUlist_ (LRUReplacer 1)).*2).
Proof.
  assert (reachable 1 (unpin 5 (LRUReplacer 1))) as Hreach.
  { exists [Unpin 5], ∅, [Done], ∅. reflexivity. }
  assert (Size (unpin 5 (LRUReplacer 1)) = 1%N) as Hsz by reflexivity.
  assert (6%Z ∉ (LRUlist_ (unpin 5 (LRUReplacer 1))).*2) as Hout.
  { apply (bool_decide_unpack _). vm_compute. exact I. }
  assert (no_unpin 6 [Victim (Some 0); Victim (Some 0)]) as Hcs.
  { apply (bool_decide_unpack _). vm_compute. exact I. }
  assert (run [Unpin 6; Victim (Some 0); Victim (Some 0)]
              ({[0 := 0%Z]}, unpin 5 (LRUReplacer 1))
          = Some ([Done; Found true (Some 5%Z); Found false (Some 5%Z)],
                  ({[0 := 5%Z]}, LRUReplacer 1))) as Hrun.
  { vm_compute. reflexivity. }
  split_and!; [done..| | |];
    apply (unpin_on_full_is_lost 1 _ 6%Z _ _ _ _ _ Hreach Hsz Hout Hcs Hrun).
Defined.

(** X12. Draining: in every reachable state, as many [victim] calls as there
    are evictable frames all return true, hand out the frames of the
    recency list from its back to its front, and leave the replacer as it
    was constructed. *)
Theorem drain_back_to_front c s a m :
  reachable c s → is_Some (m !! a) →
  ∃ m', run (replicate (length (LRUlist_ s)) (Victim (Some a))) (m, s)
        = Some ((λ u, Found true (Some u)) <$> reverse (LRUlist_ s).*2,
                (m', LRUReplacer c)).
Proof.
  intros Hreach Ha.
  pose proof (reachable_wf c s Hreach) as Hwf.
  destruct (run_victims a (LRUlist_ s) m s Hwf eq_refl Ha) as [m' Hrun].
  exists m'. by rewrite (reachable_max_size c s Hreach) in Hrun.
Qed.

Lemma drain_back_to_front_witness :
  reachable 3 (unpin 1 (unpin 3 (unpin 2 (LRUReplacer 3)))) ∧
  is_Some (({[0 := 0%Z]} : gmap nat Z) !! 0) ∧
  ∃ m', run (replicate
               (length (LRUlist_ (unpin 1 (unpin 3 (unpin 2 (LRUReplacer 3))))))
               (Victim (Some 0)))
            ({[0 := 0%Z]}, unpin 1 (unpin 3 (unpin 2 (LRUReplacer 3))))
        = Some ((λ u, Found true (Some u))
                  <$> reverse
                        (LRUlist_
                           (unpin 1 (unpin 3 (unpin 2 (LRUReplacer 3))))).*2,
                (m', LRUReplacer 3)).
Proof.
  assert (reachable 3 (unpin 1 (unpin 3 (unpin 2 (LRUReplacer 3)))))
    as Hreach.
  { exists [Unpin 2; Unpin 3; Unpin 1], ∅, [Done; Done; Done], ∅.
    reflexivity. }
  assert (is_Some (({[0 := 0%Z]} : gmap nat Z) !! 0)) as Ha.
  { exists 0%Z. reflexivity. }
  split_and!; [done..|].
  exact (drain_back_to_front 3 _ 0 _ Hreach Ha).
Defined.

(** X13. No operation changes the capacity: along every run from a fresh
    replacer, [max_size_] keeps the value the constructor gave it. *)
Theorem capacity_is_constant c cs m rs m' s :
  run cs (m, LRUReplacer c) = Some (rs, (m', s)) → max_size_ s = c.
Proof. intros Hrun. by apply max_size_run in Hrun. Qed.

Lemma capacity_is_constant_witness :
  run [Unpin 1; Unpin 2; Pin 7; Victim (Some 0); Victim (Some 0)]
      ({[0 := 0%Z]}, LRUReplacer 5)
  = Some ([Done; Done; Done; Found true (Some 1%Z); Found true (Some 2%Z)],
          ({[0 := 2%Z]}, LRUReplacer 5)) ∧
  max_size_ (LRUReplacer 5) = 5%N.
Proof.
  assert (run [Unpin 1; Unpin 2; Pin 7; Victim (Some 0); Victim (Some 0)]
              ({[0 := 0%Z]}, LRUReplacer 5)
          = Some ([Done; Done; Done; Found true (Some 1%Z);
                   Found true (Some 2%Z)],
                  ({[0 := 2%Z]}, LRUReplacer 5))) as Hrun.
  { vm_compute. reflexivity. }
  split; [exact Hrun|].
  exact (capacity_is_constant 5 _ _ _ _ _ Hrun).
Defined.

(** X14. The replacer hands out only what it was given: if a [victim] call
    of a run from a fresh replacer returns true with frame [f], the run
    contains an [unpin f] call. *)
Theorem victim_only_unpinned c cs m rs w f :
  run cs (m, LRUReplacer c) = Some (rs, w) →
  Found true (Some f) ∈ rs → Unpin f ∈ cs.
Proof.
  intros Hrun Hin. destruct (decide (Unpin f ∈ cs)) as [|Hno]; [done|].
  exfalso.
  destruct (run_untracked f cs m (LRUReplacer c) rs w) as [Hrs _];
    [apply lookup_empty|done..].
Qed.

Lemma victim_only_unpinned_witness :
  run [Unpin 1; Unpin 2; Pin 7; Victim (Some 0); Victim (Some 0)]
      ({[0 := 0%Z]}, LRUReplacer 5)
  = Some ([Done; Done; Done; Found true (Some 1%Z); Found true (Some 2%Z)],
          ({[0 := 2%Z]}, LRUReplacer 5)) ∧
  (Found true (Some 2%Z)
     ∈ [Done; Done; Done; Found true (Some 1%Z); Found true (Some 2%Z)]) ∧
  (Unpin 2 ∈ [Unpin 1; Unpin 2; Pin 7; Victim (Some 0); Victim (Some 0)]).
Proof.
  assert (run [Unpin 1; Unpin 2; Pin 7; Victim (Some 0); Victim (Some 0)]
              ({[0 := 0%Z]}, LRUReplacer 5)
          = Some ([Done; Done; Done; Found true (Some 1%Z);
                   Found true (Some 2%Z)],
                  ({[0 := 2%Z]}, LRUReplacer 5))) as Hrun.
  { vm_compute. reflexivity. }
  assert (Found true (Some 2%Z)
            ∈ [Done; Done; Done; Found true (Some 1%Z);
               Found true (Some 2%Z)]) as Hin.
  { apply (bool_decide_unpack _). vm_compute. exact I. }
  split_and!; [done..|].
  exact (victim_only_unpinned 5 _ _ _ _ 2%Z Hrun Hin).
Defined.

(** One call: a frame handed out is a node less, and only [unpin] can add a
    node, one at most. *)
Lemma exec_balance c m s r m1 s1 :
  exec c (m, s) = Some (r, (m1, s1)) →
  (if is_found r then 1 else 0) + length (LRUlist_ s1)
  ≤ length (LRUlist_ s) + (if is_unpin c then 1 else 0).
Proof.
  destruct c as [p|f|f|]; simpl.
  - destruct (victim p m s) as [[[b m2] s2]|] eqn:Hv; simpl; [|done].
    intros [= <- _ <-].
    apply victim_inv in Hv
      as [(_ & -> & _ & ->)
         |(a & l & it & v & _ & _ & Hl & _ &
           [(-> & _ & ->)|(-> & _ & ->)])]; simpl; [lia|lia|].
    rewrite Hl, length_app. simpl. lia.
  - destruct (pin f s) as [s2|] eqn:Hp; simpl; [|done].
    intros [= <- _ <-].
    apply pin_inv in Hp as [_ ->]. simpl. lia.
  - intros [= <- _ <-]. simpl. unfold unpin.
    destruct (_ <=? _)%N; [lia|]. destruct (List_.scan _ _); [lia|].
    simpl. lia.
  - intros [= <- _ <-]. simpl. lia.
Qed.

Lemma run_balance cs m s rs m' s' :
  run cs (m, s) = Some (rs, (m', s')) →
  length (List.filter is_found rs) + length (LRUlist_ s')
  ≤ length (LRUlist_ s) + length (List.filter is_unpin cs).
Proof.
  revert m s rs. induction cs as [|c cs IH]; intros m s rs.
  - intros [= <- _ <-]. simpl. lia.
  - intros (r & [m1 s1] & rs' & He & Hr & ->)%run_cons_inv.
    apply exec_balance in He. apply IH in Hr. simpl.
    destruct (is_found r), (is_unpin c); simpl in *; lia.
Qed.

(** X15. Along every run from a fresh replacer, the number of [victim]
    calls that returned true plus the number of frames still evictable is
    at most the number of [unpin] calls: no frame is handed out twice for
    one [unpin]. *)
Theorem handed_out_at_most_unpinned c cs m rs m' s :
  run cs (m, LRUReplacer c) = Some (rs, (m', s)) →
  length (List.filter is_found rs) + length (LRUlist_ s)
  ≤ length (List.filter is_unpin cs).
Proof. intros Hrun. by apply run_balance in Hrun. Qed.

Lemma handed_out_at_most_unpinned_witness :
  run [Unpin 1; Unpin 2; Unpin 1; Victim (Some 0); Victim (Some 0);
       Victim (Some 0)]
      ({[0 := 0%Z]}, LRUReplacer 5)
  = Some ([Done; Done; Done; Found true (Some 1%Z); Found true (Some 2%Z);
           Found false (Some 2%Z)],
          ({[0 := 2%Z]}, LRUReplacer 5)) ∧
  length (List.filter is_found
            [Done; Done; Done; Found true (Some 1%Z); Found true (Some 2%Z);
             Found false (Some 2%Z)])
  + length (LRUlist_ (LRUReplacer 5))
  ≤ length (List.filter is_unpin
              [Unpin 1; Unpin 2; Unpin 1; Victim (Some 0); Victim (Some 0);
               Victim (Some 0)]).
Proof.
  assert (run [Unpin 1; Unpin 2; Unpin 1; Victim (Some 0); Victim (Some 0);
               Victim (Some 0)]
              ({[0 := 0%Z]}, LRUReplacer 5)
          = Some ([Done; Done; Done; Found true (Some 1%Z);
                   Found true (Some 2%Z); Found false (Some 2%Z)],
                  ({[0 := 2%Z]}, LRUReplacer 5))) as Hrun.
  { vm_compute. reflexivity. }
  split; [exact Hrun|].
  exact (handed_out_at_most_unpinned 5 _ _ _ _ _ Hrun).
Defined.
